(** * Modular arithmetic on 64-bit words and the Miller-Rabin test

    A shallow embedding of [miller_rabin.c]: the four modular
    primitives [mod_add], [mod_sub], [mod_mul], [mod_pow] and the
    deterministic test [miller_rabin] built on them.

    Every C value of type [uint64_t] is a [Z]; each machine operation
    that can leave the range [0, 2^64) is written with its wrap-around
    and records whether the wrap-around took place.  The remainder
    operator with a zero divisor and a loop that needs more iterations
    than the word width allows are the two ways a run can fail to
    produce a value. *)

From Stdlib Require Import ZArith Znumtheory ZmodInv Bool List Lia.
Import ListNotations.
Local Open Scope Z_scope.

(** ** Outcomes of a run *)

(** A run either returns a value, together with a flag telling whether
    some intermediate machine operation wrapped around, or it stops at
    a remainder by zero, or it exhausts the iteration budget of a
    loop. *)
Inductive outcome (A : Type) : Type :=
| Ret (v : A) (wrapped : bool)
| DivByZero
| OutOfFuel.

Arguments Ret {A} v wrapped.
Arguments DivByZero {A}.
Arguments OutOfFuel {A}.

Definition ret {A : Type} (v : A) : outcome A := Ret v false.

Definition bind {A B : Type} (c : outcome A) (f : A -> outcome B) : outcome B :=
  match c with
  | Ret v w =>
      match f v with
      | Ret v' w' => Ret v' (w || w')
      | DivByZero => DivByZero
      | OutOfFuel => OutOfFuel
      end
  | DivByZero => DivByZero
  | OutOfFuel => OutOfFuel
  end.

Declare Scope outcome_scope.
Delimit Scope outcome_scope with outcome.
Notation "x <- c ;; k" := (bind c (fun x => k))
  (at level 61, c at next level, right associativity) : outcome_scope.
Notation "' pat <- c ;; k" := (bind c (fun x => match x with pat => k end))
  (at level 61, pat pattern, c at next level, right associativity) : outcome_scope.
Local Open Scope outcome_scope.

(** [returns c v]: the run [c] produces the value [v]. *)
Definition returns {A : Type} (c : outcome A) (v : A) : Prop :=
  exists w, c = Ret v w.

(** [exact c v]: the run [c] produces [v] and no intermediate
    operation wrapped around. *)
Definition exact {A : Type} (c : outcome A) (v : A) : Prop :=
  c = Ret v false.

(** ** 64-bit and 32-bit unsigned machine arithmetic *)

Module U64.

Definition width : nat := 64.
Definition modulus : Z := 2 ^ 64.

Definition in_range (x : Z) : Prop := 0 <= x < modulus.

Definition wrap (x : Z) : Z := x mod modulus.

(** Did the ideal result [x] fall outside the word? *)
Definition overflows (x : Z) : bool := negb (x =? wrap x).

Definition add (x y : Z) : outcome Z := Ret (wrap (x + y)) (overflows (x + y)).
Definition sub (x y : Z) : outcome Z := Ret (wrap (x - y)) (overflows (x - y)).

(** [x % m]; a zero divisor has no defined result. *)
Definition rem (x m : Z) : outcome Z :=
  if m =? 0 then DivByZero else ret (x mod m).

(** [x >> 1] and the truth value of [x & 1]. *)
Definition shr1 (x : Z) : Z := Z.shiftr x 1.
Definition low_bit (x : Z) : bool := negb (Z.land x 1 =? 0).

End U64.

Module U32.

(** [j++] on an [unsigned int]: the successor modulo [2^32]. *)
Definition incr (j : Z) : outcome Z :=
  let s := (j + 1) mod 2 ^ 32 in
  Ret s (negb (j + 1 =? s)).

End U32.

(** ** The modular primitives *)

(** [mod_add]: both operands are reduced, then [a >= m - b] selects
    between [a - (m - b)] and [a + b]. *)
Definition mod_add (a b m : Z) : outcome Z :=
  a <- U64.rem a m ;;
  b <- U64.rem b m ;;
  d <- U64.sub m b ;;
  if a >=? d
  then (d' <- U64.sub m b ;; U64.sub a d')
  else U64.add a b.

(** [mod_sub]: both operands are reduced, then [a < b] selects between
    [m - b + a] and [a - b]. *)
Definition mod_sub (a b m : Z) : outcome Z :=
  a <- U64.rem a m ;;
  b <- U64.rem b m ;;
  if a <? b
  then (t <- U64.sub m b ;; U64.add t a)
  else U64.sub a b.

(** The [while (b > 0)] loop of [mod_mul].  Each iteration halves [b],
    so [fuel] bounds the number of iterations. *)
Fixpoint mod_mul_loop (fuel : nat) (r a b m : Z) : outcome Z :=
  if b >? 0 then
    match fuel with
    | O => OutOfFuel
    | S fuel' =>
        r <- (if U64.low_bit b then mod_add r a m else ret r) ;;
        let b := U64.shr1 b in
        a <- mod_add a a m ;;
        mod_mul_loop fuel' r a b m
    end
  else ret r.

Definition mod_mul (a b m : Z) : outcome Z :=
  let r := 0 in
  a <- U64.rem a m ;;
  b <- U64.rem b m ;;
  mod_mul_loop U64.width r a b m.

(** The [while (b > 0)] loop of [mod_pow]. *)
Fixpoint mod_pow_loop (fuel : nat) (r a b m : Z) : outcome Z :=
  if b >? 0 then
    match fuel with
    | O => OutOfFuel
    | S fuel' =>
        r <- (if U64.low_bit b then mod_mul r a m else ret r) ;;
        let b := U64.shr1 b in
        a <- mod_mul a a m ;;
        mod_pow_loop fuel' r a b m
    end
  else ret r.

(** [mod_pow]: only the base is reduced, and only when [a >= m]; the
    exponent is used as it is. *)
Definition mod_pow (a b m : Z) : outcome Z :=
  let r := 1 in
  a <- (if a >=? m then U64.rem a m else ret a) ;;
  mod_pow_loop U64.width r a b m.

(** ** The primality test *)

(** Modelled from the spec: the header [miller_rabin.h] is not among
    the sources; it declares the two result constants [PRIME] and
    [COMPOSITE], which the spec describes as a two-valued
    enumeration. *)
Inductive verdict : Type := PRIME | COMPOSITE.

(** Modelled from the spec: the header [miller_rabin.h] is not among
    the sources; it defines the length [BASELEN] of the base table,
    which the spec gives as 12, the number of initialisers of [a]. *)
Definition BASELEN : nat := 12.

(** The global table [a] of witness bases. *)
Definition a : list Z := [2; 3; 5; 7; 11; 13; 17; 19; 23; 29; 31; 37].

(** The decomposition loop [while (temp >= 1)]: leaves on the first set
    low bit, otherwise counts in [k] and halves [temp].  It yields the
    final [(k, temp)]. *)
Fixpoint decompose_loop (fuel : nat) (temp k : Z) : outcome (Z * Z) :=
  if temp >=? 1 then
    match fuel with
    | O => OutOfFuel
    | S fuel' =>
        if U64.low_bit temp then ret (k, temp)
        else
          k <- U64.add k 1 ;;
          decompose_loop fuel' (U64.shr1 temp) k
    end
  else ret (k, temp).

(** [temp = n - 1, k = 1], the loop, then [q = temp]: the pair
    [(k, q)]. *)
Definition decompose (n : Z) : outcome (Z * Z) :=
  temp <- U64.sub n 1 ;;
  decompose_loop U64.width temp 1.

(** The expression compared with [n - 1] in the inner loop:
    [mod_pow(mod_pow(a[i], q, n), mod_pow(2, j, n), n)]. *)
Definition squaring_check (ai q j n : Z) : outcome Z :=
  x <- mod_pow ai q n ;;
  e <- mod_pow 2 j n ;;
  mod_pow x e n.

(** The inner loop [for (j = ..; j < k - 1; j++)], entered at [j]:
    [true] when it leaves through [return PRIME], [false] when the
    bound is reached. *)
Fixpoint inner_loop (fuel : nat) (ai q k n j : Z) : outcome bool :=
  bound <- U64.sub k 1 ;;
  if j <? bound then
    match fuel with
    | O => OutOfFuel
    | S fuel' =>
        y <- squaring_check ai q j n ;;
        t <- U64.sub n 1 ;;
        if y =? t then ret true
        else
          j <- U32.incr j ;;
          inner_loop fuel' ai q k n j
    end
  else ret false.

(** The body of the outer loop for the base [ai]: [true] when it
    returns [PRIME]. *)
Definition witness_step (ai q k n : Z) : outcome bool :=
  x <- mod_pow ai q n ;;
  if x =? 1 then ret true
  else inner_loop U64.width ai q k n 0.

(** The outer loop over the table, in order. *)
Fixpoint witness_loop (bases : list Z) (q k n : Z) : outcome verdict :=
  match bases with
  | [] => ret COMPOSITE
  | ai :: rest =>
      hit <- witness_step ai q k n ;;
      if hit then ret PRIME else witness_loop rest q k n
  end.

(** [miller_rabin] over an arbitrary table of bases. *)
Definition miller_rabin_bases (bases : list Z) (n : Z) : outcome verdict :=
  ' (k, q) <- decompose n ;;
  witness_loop bases q k n.

(** [miller_rabin]: the loop [for (i = 0; i < BASELEN; i++)] reads
    [a[0]] to [a[BASELEN - 1]]. *)
Definition miller_rabin (n : Z) : outcome verdict :=
  miller_rabin_bases (firstn BASELEN a) n.

(** ** The pass condition of a base, as the test evaluates it *)

(** Base [ai] passes when [mod_pow(ai, q, n) == 1], or when for some
    [j] in [0 .. k-2] the squaring check equals [n - 1]. *)
Definition passes (q k n ai : Z) : Prop :=
  returns (mod_pow ai q n) 1 \/
  exists j, 0 <= j <= k - 2 /\ returns (squaring_check ai q j n) (n - 1).

(** * Properties *)

(** ** The outcome monad *)

Lemma bind_exact {A B : Type} (c : outcome A) (v : A) (f : A -> outcome B) :
  exact c v -> bind c f = f v.
Proof.
  unfold exact. intros ->. simpl. destruct (f v); reflexivity.
Qed.

Lemma bind_ret {A B : Type} (v : A) (f : A -> outcome B) :
  bind (ret v) f = f v.
Proof. apply bind_exact. reflexivity. Qed.

Lemma exact_returns_iff {A : Type} (c : outcome A) (v v' : A) :
  exact c v -> (returns c v' <-> v' = v).
Proof.
  unfold exact, returns. intros ->. split.
  - intros [w H]. congruence.
  - intros ->. eauto.
Qed.

(** ** Machine arithmetic inside the word *)

Lemma modulus_pos : 0 < U64.modulus.
Proof. reflexivity. Qed.

Lemma wrap_small x : U64.in_range x -> U64.wrap x = x.
Proof. unfold U64.in_range, U64.wrap. intros H. apply Z.mod_small. exact H. Qed.

Lemma overflows_small x : U64.in_range x -> U64.overflows x = false.
Proof.
  intros H. unfold U64.overflows. rewrite (wrap_small x H), Z.eqb_refl. reflexivity.
Qed.

Lemma add_exact x y : U64.in_range (x + y) -> U64.add x y = ret (x + y).
Proof.
  intros H. unfold U64.add, ret. rewrite (wrap_small _ H), (overflows_small _ H).
  reflexivity.
Qed.

Lemma sub_exact x y : U64.in_range (x - y) -> U64.sub x y = ret (x - y).
Proof.
  intros H. unfold U64.sub, ret. rewrite (wrap_small _ H), (overflows_small _ H).
  reflexivity.
Qed.

Lemma rem_exact x m : m <> 0 -> U64.rem x m = ret (x mod m).
Proof.
  intros H. unfold U64.rem. destruct (Z.eqb_spec m 0); [contradiction | reflexivity].
Qed.

Lemma incr_exact j : 0 <= j < 2 ^ 32 - 1 -> U32.incr j = ret (j + 1).
Proof.
  intros H. unfold U32.incr, ret. cbv zeta.
  rewrite Z.mod_small by lia. rewrite Z.eqb_refl. reflexivity.
Qed.

Lemma low_bit_odd b : U64.low_bit b = Z.odd b.
Proof.
  unfold U64.low_bit. change 1 with (Z.ones 1) at 1.
  rewrite Z.land_ones by lia. change (2 ^ 1) with 2.
  rewrite Zmod_odd. destruct (Z.odd b); reflexivity.
Qed.

Lemma shr1_half b : U64.shr1 b = b / 2.
Proof. unfold U64.shr1. rewrite Z.shiftr_div_pow2 by lia. reflexivity. Qed.

Lemma half_odd_decomp b : b = 2 * (b / 2) + (if Z.odd b then 1 else 0).
Proof.
  rewrite <- Zmod_odd. apply Z.div_mod. lia.
Qed.

Lemma half_lt_pow2 b fuel :
  0 <= b < 2 ^ Z.of_nat (S fuel) -> 0 <= b / 2 < 2 ^ Z.of_nat fuel.
Proof.
  rewrite Nat2Z.inj_succ, Z.pow_succ_r by lia. intros H. split.
  - apply Z.div_pos; lia.
  - apply Z.div_lt_upper_bound; lia.
Qed.

(** ** [mod_add] and [mod_sub] *)

Section Primitives.

Variable m : Z.
Hypothesis m_pos : 0 < m.
Hypothesis m_word : U64.in_range m.

Lemma mod_add_exact (x y : Z) :
  mod_add x y m = ret ((x mod m + y mod m) mod m).
Proof.
  pose proof modulus_pos as Hmod. unfold U64.in_range in m_word.
  pose proof (Z.mod_pos_bound x m m_pos) as Hx.
  pose proof (Z.mod_pos_bound y m m_pos) as Hy.
  unfold mod_add.
  rewrite !rem_exact, !bind_ret by lia.
  rewrite sub_exact, bind_ret by (unfold U64.in_range; lia).
  destruct (Z.geb_spec (x mod m) (m - y mod m)) as [Hge | Hlt].
  - rewrite bind_ret.
    rewrite sub_exact by (unfold U64.in_range; lia).
    f_equal. apply Z.mod_unique_pos with (q := 1); lia.
  - rewrite add_exact by (unfold U64.in_range; lia).
    f_equal. symmetry. apply Z.mod_small. lia.
Qed.

Lemma mod_sub_exact (x y : Z) :
  mod_sub x y m = ret ((x mod m - y mod m + m) mod m).
Proof.
  pose proof modulus_pos as Hmod. unfold U64.in_range in m_word.
  pose proof (Z.mod_pos_bound x m m_pos) as Hx.
  pose proof (Z.mod_pos_bound y m m_pos) as Hy.
  unfold mod_sub.
  rewrite !rem_exact, !bind_ret by lia.
  destruct (Z.ltb_spec (x mod m) (y mod m)) as [Hlt | Hge].
  - rewrite sub_exact, bind_ret by (unfold U64.in_range; lia).
    rewrite add_exact by (unfold U64.in_range; lia).
    f_equal. rewrite (Z.mod_small (x mod m - y mod m + m)) by lia. lia.
  - rewrite sub_exact by (unfold U64.in_range; lia).
    f_equal. apply Z.mod_unique_pos with (q := 1); lia.
Qed.

Lemma mod_add_reduced (x y : Z) :
  0 <= x < m -> 0 <= y < m -> mod_add x y m = ret ((x + y) mod m).
Proof.
  intros Hx Hy. rewrite mod_add_exact, (Z.mod_small x), (Z.mod_small y) by lia.
  reflexivity.
Qed.

(** ** [mod_mul] *)

Lemma mod_mul_loop_exact (fuel : nat) :
  forall r x b,
    0 <= r < m -> 0 <= x < m -> 0 <= b < 2 ^ Z.of_nat fuel ->
    mod_mul_loop fuel r x b m = ret ((r + x * b) mod m).
Proof.
  induction fuel as [| fuel IH]; intros r x b Hr Hx Hb.
  - assert (b = 0) as -> by (simpl in Hb; lia).
    simpl. rewrite Z.mul_0_r, Z.add_0_r, Z.mod_small by lia. reflexivity.
  - cbn [mod_mul_loop]. destruct (Z.gtb_spec b 0) as [Hpos | Hzero].
    + rewrite low_bit_odd, shr1_half.
      pose proof (half_odd_decomp b) as Hdec.
      pose proof (half_lt_pow2 b fuel Hb) as Hhalf.
      assert (Hdbl : 0 <= (x + x) mod m < m) by (apply Z.mod_pos_bound; lia).
      destruct (Z.odd b).
      * rewrite (mod_add_reduced r x Hr Hx), bind_ret.
        rewrite (mod_add_reduced x x Hx Hx), bind_ret.
        rewrite IH by (try apply Z.mod_pos_bound; lia).
        f_equal.
        rewrite Z.add_mod_idemp_l by lia.
        rewrite <- Z.add_mod_idemp_r by lia.
        rewrite Z.mul_mod_idemp_l by lia.
        rewrite Z.add_mod_idemp_r by lia.
        f_equal. lia.
      * rewrite bind_ret.
        rewrite (mod_add_reduced x x Hx Hx), bind_ret.
        rewrite IH by lia.
        f_equal.
        rewrite <- Z.add_mod_idemp_r by lia.
        rewrite Z.mul_mod_idemp_l by lia.
        rewrite Z.add_mod_idemp_r by lia.
        f_equal. lia.
    + assert (b = 0) as -> by lia.
      rewrite Z.mul_0_r, Z.add_0_r, Z.mod_small by lia. reflexivity.
Qed.

Lemma mod_mul_exact (x y : Z) :
  mod_mul x y m = ret ((x * y) mod m).
Proof.
  pose proof (Z.mod_pos_bound x m m_pos) as Hx.
  pose proof (Z.mod_pos_bound y m m_pos) as Hy.
  unfold U64.in_range, U64.modulus in m_word.
  unfold mod_mul.
  rewrite !rem_exact, !bind_ret by lia.
  rewrite mod_mul_loop_exact by (unfold U64.width; simpl Z.of_nat; lia).
  f_equal. rewrite Z.add_0_l. symmetry. apply Z.mul_mod. lia.
Qed.

End Primitives.

(** ** [mod_pow] *)

Section Power.

Variable m : Z.
Hypothesis m_pos : 0 < m.
Hypothesis m_word : U64.in_range m.

Lemma pow_half_step (x b : Z) :
  0 <= b -> x ^ b = (x * x) ^ (b / 2) * (if Z.odd b then x else 1).
Proof.
  intros Hb. pose proof (half_odd_decomp b) as Hdec.
  assert (Hhalf : 0 <= b / 2) by (apply Z.div_pos; lia).
  rewrite Hdec at 1.
  rewrite Z.pow_add_r, Z.pow_mul_r by (try destruct (Z.odd b); lia).
  rewrite Z.pow_2_r. destruct (Z.odd b); [rewrite Z.pow_1_r | rewrite Z.pow_0_r];
    reflexivity.
Qed.

(** The accumulator starts at 1, which is not a residue when
    [m = 1]; it becomes one at the first multiplication. *)
Lemma mod_pow_loop_exact (fuel : nat) :
  forall r x b,
    0 <= r -> r < m \/ 0 < b -> 0 <= x < m -> 0 <= b < 2 ^ Z.of_nat fuel ->
    mod_pow_loop fuel r x b m = ret ((r * x ^ b) mod m).
Proof.
  induction fuel as [| fuel IH]; intros r x b Hr Hrb Hx Hb.
  - assert (b = 0) as -> by (simpl in Hb; lia).
    simpl mod_pow_loop. rewrite Z.pow_0_r, Z.mul_1_r, Z.mod_small by lia.
    reflexivity.
  - cbn [mod_pow_loop]. destruct (Z.gtb_spec b 0) as [Hpos | Hzero].
    + rewrite low_bit_odd, shr1_half.
      pose proof (half_odd_decomp b) as Hdec.
      pose proof (half_lt_pow2 b fuel Hb) as Hhalf.
      rewrite (pow_half_step x b) by lia.
      rewrite !(mod_mul_exact m m_pos m_word).
      assert (Hsq : 0 <= (x * x) mod m < m) by (apply Z.mod_pos_bound; lia).
      destruct (Z.odd b).
      * rewrite !bind_ret.
        assert (Hrx : 0 <= (r * x) mod m < m) by (apply Z.mod_pos_bound; lia).
        rewrite IH by lia.
        f_equal.
        rewrite <- Z.mul_mod_idemp_r by lia.
        rewrite Z.mod_pow_l.
        rewrite Z.mul_mod_idemp_r, Z.mul_mod_idemp_l by lia.
        f_equal. ring.
      * rewrite !bind_ret.
        rewrite IH by lia.
        f_equal.
        rewrite <- Z.mul_mod_idemp_r by lia.
        rewrite Z.mod_pow_l.
        rewrite Z.mul_mod_idemp_r by lia.
        f_equal. ring.
    + assert (b = 0) as -> by lia.
      rewrite Z.pow_0_r, Z.mul_1_r, Z.mod_small by lia. reflexivity.
Qed.

Lemma mod_pow_base_reduced (x : Z) :
  0 <= x ->
  (if x >=? m then U64.rem x m else ret x) = ret (x mod m).
Proof.
  intros Hx. destruct (Z.geb_spec x m).
  - apply rem_exact. lia.
  - rewrite Z.mod_small by lia. reflexivity.
Qed.

Lemma mod_pow_exact (x b : Z) :
  U64.in_range x -> U64.in_range b -> 1 < m \/ 0 < b ->
  mod_pow x b m = ret ((x ^ b) mod m).
Proof.
  unfold U64.in_range, U64.modulus. intros Hx Hb Hmb.
  unfold mod_pow.
  rewrite mod_pow_base_reduced, bind_ret by lia.
  rewrite mod_pow_loop_exact;
    try (unfold U64.width; simpl Z.of_nat); try lia.
  - rewrite Z.mul_1_l. f_equal. apply Z.mod_pow_l.
  - apply Z.mod_pos_bound. lia.
Qed.

(** With a zero exponent the loop body never runs: the initial
    accumulator 1 comes back as it is, whatever the base. *)
Lemma mod_pow_zero_exponent (x : Z) : mod_pow x 0 m = ret 1.
Proof.
  unfold mod_pow. destruct (x >=? m).
  - rewrite rem_exact, bind_ret by lia. reflexivity.
  - rewrite bind_ret. reflexivity.
Qed.

End Power.

(** ** The decomposition of [n - 1] *)

Lemma decompose_loop_exact (fuel : nat) :
  forall temp k,
    0 < temp < 2 ^ Z.of_nat fuel ->
    0 <= k -> k + Z.of_nat fuel < U64.modulus ->
    exists k' q,
      decompose_loop fuel temp k = ret (k', q) /\
      temp = 2 ^ (k' - k) * q /\ Z.odd q = true /\ k <= k' /\ 1 <= q /\
      (Z.odd temp = false -> k < k').
Proof.
  induction fuel as [| fuel IH]; intros temp k Ht Hk Hfit.
  - simpl in Ht. lia.
  - cbn [decompose_loop]. destruct (Z.geb_spec temp 1) as [_ | Hlt]; [| lia].
    rewrite low_bit_odd. destruct (Z.odd temp) eqn:Hodd.
    + exists k, temp. rewrite Z.sub_diag, Z.pow_0_r.
      split; [reflexivity |]. split; [lia |]. split; [exact Hodd |].
      split; [lia |]. split; [lia | congruence].
    + pose proof (half_odd_decomp temp) as Hdec. rewrite Hodd in Hdec.
      pose proof (half_lt_pow2 temp fuel (conj (Z.lt_le_incl _ _ (proj1 Ht)) (proj2 Ht)))
        as Hhalf.
      rewrite add_exact, bind_ret, shr1_half
        by (unfold U64.in_range; lia).
      destruct (IH (temp / 2) (k + 1)) as (k' & q & Hrun & Heq & Hq & Hle & Hq1 & _);
        try lia.
      exists k', q. repeat split; try lia; try assumption.
      replace (k' - k) with (Z.succ (k' - (k + 1))) by lia.
      rewrite Z.pow_succ_r by lia. lia.
Qed.

(** What the loop computes: [k] is one more than the number of
    trailing zero bits of [n - 1], and [q] is its odd part. *)
Lemma decompose_exact (n : Z) :
  U64.in_range n -> 3 < n -> Z.odd n = true ->
  exists k q,
    decompose n = ret (k, q) /\
    n - 1 = 2 ^ (k - 1) * q /\ Z.odd q = true /\
    2 <= k <= 64 /\ 1 <= q < n.
Proof.
  unfold U64.in_range, U64.modulus. intros Hn H3 Hodd.
  unfold decompose.
  rewrite sub_exact, bind_ret by (unfold U64.in_range, U64.modulus; lia).
  assert (Heven : Z.odd (n - 1) = false).
  { rewrite Z.odd_sub, Hodd. reflexivity. }
  destruct (decompose_loop_exact U64.width (n - 1) 1)
    as (k & q & Hrun & Heq & Hq & Hle & Hq1 & Hlt);
    try (unfold U64.width, U64.modulus; simpl Z.of_nat; lia).
  specialize (Hlt Heven).
  exists k, q. split; [exact Hrun |]. split; [exact Heq |]. split; [exact Hq |].
  assert (Hpow : 0 < 2 ^ (k - 1)) by (apply Z.pow_pos_nonneg; lia).
  assert (Hk : k - 1 < 64).
  { apply (Z.pow_lt_mono_r_iff 2); nia. }
  split; [lia | nia].
Qed.

(** ** The witness loops *)

Section Witness.

Variables n k q : Z.
Hypothesis n_word : U64.in_range n.
Hypothesis n_big : 1 < n.
Hypothesis q_word : U64.in_range q.
Hypothesis k_bounds : 1 <= k <= 64.
Hypothesis k_fits : 2 ^ (k - 1) <= n - 1.

Lemma inner_index_small (j : Z) : 0 <= j <= k - 2 -> 0 < 2 ^ j < n.
Proof.
  intros Hj. split.
  - apply Z.pow_pos_nonneg; lia.
  - assert (2 ^ j < 2 ^ (k - 1)) by (apply Z.pow_lt_mono_r; lia). lia.
Qed.

Lemma mod_pow_two_exact (j : Z) :
  0 <= j <= k - 2 -> mod_pow 2 j n = ret (2 ^ j).
Proof.
  intros Hj. pose proof (inner_index_small j Hj) as Hsmall.
  rewrite mod_pow_exact;
    try (unfold U64.in_range, U64.modulus in *; lia).
  rewrite Z.mod_small by lia. reflexivity.
Qed.

Lemma squaring_check_exact (ai j : Z) :
  U64.in_range ai -> 0 <= j <= k - 2 ->
  squaring_check ai q j n = ret (ai ^ (q * 2 ^ j) mod n).
Proof.
  intros Hai Hj. pose proof (inner_index_small j Hj) as Hsmall.
  assert (Hx : 0 <= ai ^ q mod n < n) by (apply Z.mod_pos_bound; lia).
  unfold squaring_check.
  rewrite (mod_pow_exact n) by (assumption || lia).
  rewrite bind_ret, (mod_pow_two_exact j Hj), bind_ret.
  rewrite mod_pow_exact;
    try (unfold U64.in_range, U64.modulus in *; lia).
  unfold U64.in_range in q_word.
  rewrite Z.mod_pow_l, <- Z.pow_mul_r by lia. reflexivity.
Qed.

Lemma inner_loop_exact (ai : Z) (fuel : nat) :
  U64.in_range ai ->
  forall j,
    0 <= j -> k - 1 - j <= Z.of_nat fuel ->
    exists hit,
      inner_loop fuel ai q k n j = ret hit /\
      (hit = true <->
       exists j', j <= j' <= k - 2 /\ ai ^ (q * 2 ^ j') mod n = n - 1).
Proof.
  intros Hai. unfold U64.in_range, U64.modulus in n_word.
  induction fuel as [| fuel IH]; intros j Hj Hfuel.
  - exists false. split.
    + cbn [inner_loop].
      rewrite sub_exact, bind_ret by (unfold U64.in_range, U64.modulus; lia).
      destruct (Z.ltb_spec j (k - 1)); [simpl Z.of_nat in Hfuel; lia | reflexivity].
    + split; [discriminate |]. intros (j' & Hj' & _). simpl Z.of_nat in Hfuel. lia.
  - cbn [inner_loop].
    rewrite sub_exact, bind_ret by (unfold U64.in_range, U64.modulus; lia).
    destruct (Z.ltb_spec j (k - 1)) as [Hlt | Hge].
    + rewrite squaring_check_exact, bind_ret by (assumption || lia).
      rewrite sub_exact, bind_ret by (unfold U64.in_range, U64.modulus; lia).
      destruct (Z.eqb_spec (ai ^ (q * 2 ^ j) mod n) (n - 1)) as [Heq | Hne].
      * exists true. split; [reflexivity |]. split; [| reflexivity].
        intros _. exists j. split; [lia | exact Heq].
      * rewrite incr_exact, bind_ret by lia.
        destruct (IH (j + 1)) as (hit & Hrun & Hhit); try lia.
        exists hit. split; [exact Hrun |]. rewrite Hhit. split.
        -- intros (j' & Hj' & Hc). exists j'. split; [lia | exact Hc].
        -- intros (j' & Hj' & Hc). exists j'. split; [| exact Hc].
           assert (j' <> j) by congruence. lia.
    + exists false. split; [reflexivity |]. split; [discriminate |].
      intros (j' & Hj' & _). lia.
Qed.

(** The pass condition, read on the exact values. *)
Lemma passes_iff (ai : Z) :
  U64.in_range ai ->
  passes q k n ai <->
  ai ^ q mod n = 1 \/
  exists j, 0 <= j <= k - 2 /\ ai ^ (q * 2 ^ j) mod n = n - 1.
Proof.
  intros Hai. unfold passes.
  rewrite (exact_returns_iff (mod_pow ai q n) (ai ^ q mod n))
    by (apply mod_pow_exact; assumption || lia).
  split; (intros [H1 | (j & Hj & Hc)]; [left; congruence | right; exists j]).
  - split; [exact Hj |].
    apply (exact_returns_iff _ _ _ (squaring_check_exact ai j Hai Hj)) in Hc.
    congruence.
  - split; [exact Hj |].
    apply (exact_returns_iff _ _ _ (squaring_check_exact ai j Hai Hj)).
    congruence.
Qed.

Lemma witness_step_exact (ai : Z) :
  U64.in_range ai ->
  exists hit,
    witness_step ai q k n = ret hit /\ (hit = true <-> passes q k n ai).
Proof.
  intros Hai. unfold witness_step.
  rewrite (mod_pow_exact n), bind_ret by (assumption || lia).
  pose proof (passes_iff ai Hai) as Hp.
  destruct (Z.eqb_spec (ai ^ q mod n) 1) as [Heq | Hne].
  - exists true. split; [reflexivity |]. rewrite Hp.
    split; [left; exact Heq | reflexivity].
  - destruct (inner_loop_exact ai U64.width Hai 0) as (hit & Hrun & Hhit);
      try (unfold U64.width; simpl Z.of_nat; lia).
    exists hit. split; [exact Hrun |]. rewrite Hp, Hhit. split.
    + intros H. right. exact H.
    + intros [H1 | H]; [contradiction | exact H].
Qed.

Lemma witness_loop_exact (bases : list Z) :
  Forall U64.in_range bases ->
  exists v,
    witness_loop bases q k n = ret v /\
    (v = PRIME <-> Exists (passes q k n) bases) /\
    (v = COMPOSITE <-> Forall (fun ai => ~ passes q k n ai) bases).
Proof.
  induction 1 as [| ai rest Hai Hrest IH].
  - exists COMPOSITE. split; [reflexivity |]. split; split; try discriminate.
    + intros H. inversion H.
    + constructor.
    + reflexivity.
  - cbn [witness_loop].
    destruct (witness_step_exact ai Hai) as (hit & Hrun & Hhit).
    rewrite Hrun, bind_ret. destruct hit.
    + exists PRIME. split; [reflexivity |]. split; split; try discriminate.
      * intros _. left. apply Hhit. reflexivity.
      * reflexivity.
      * intros H. inversion H; subst. exfalso. intuition.
    + destruct IH as (v & Hv & Hprime & Hcomp).
      assert (Hno : ~ passes q k n ai) by (intros Hp; apply Hhit in Hp; discriminate).
      exists v. split; [exact Hv |]. split.
      * rewrite Hprime. split.
        -- intros H. right. exact H.
        -- intros H. inversion H; subst; [contradiction | assumption].
      * rewrite Hcomp. split.
        -- intros H. constructor; assumption.
        -- intros H. inversion H; subst. assumption.
Qed.

(** Once a base passes, what follows it in the table is not read. *)
Lemma witness_loop_first (before later : list Z) (ai : Z) :
  Forall U64.in_range before -> U64.in_range ai ->
  Forall (fun b => ~ passes q k n b) before -> passes q k n ai ->
  witness_loop (before ++ ai :: later) q k n = ret PRIME.
Proof.
  intros Hbefore Hai Hnone Hpass.
  induction Hbefore as [| b rest Hb Hrest IH]; cbn [app witness_loop].
  - destruct (witness_step_exact ai Hai) as (hit & Hrun & Hhit).
    rewrite Hrun, bind_ret. apply Hhit in Hpass. rewrite Hpass. reflexivity.
  - destruct (witness_step_exact b Hb) as (hit & Hrun & Hhit).
    rewrite Hrun, bind_ret. inversion Hnone; subst.
    destruct hit; [exfalso; intuition |]. apply IH. assumption.
Qed.

End Witness.

Lemma bases_in_range : Forall U64.in_range a.
Proof.
  unfold a, U64.in_range, U64.modulus. repeat constructor; lia.
Qed.

Lemma table_complete : firstn BASELEN a = a.
Proof. reflexivity. Qed.

(** The preconditions of the witness loops hold for the decomposition
    of an odd [n > 3]. *)
Lemma decompose_ready (n : Z) :
  U64.in_range n -> 3 < n -> Z.odd n = true ->
  exists k q,
    decompose n = ret (k, q) /\
    U64.in_range q /\ 1 <= k <= 64 /\ 2 ^ (k - 1) <= n - 1.
Proof.
  intros Hn H3 Hodd.
  destruct (decompose_exact n Hn H3 Hodd) as (k & q & Hrun & Heq & _ & Hk & Hq).
  exists k, q. split; [exact Hrun |].
  assert (Hpow : 0 < 2 ^ (k - 1)) by (apply Z.pow_pos_nonneg; lia).
  unfold U64.in_range in *. repeat split; try lia. nia.
Qed.

(** * The claims *)

(** C8.  For every modulus [m > 0] and all [a], [b], [mod_add a b m]
    returns [(a mod m + b mod m) mod m]; the operands need not be below
    [m], and no intermediate operation wraps around modulo [2^64]. *)
Theorem mod_add_matches_reference (x y m : Z) :
  U64.in_range m -> 0 < m ->
  exact (mod_add x y m) ((x mod m + y mod m) mod m).
Proof.
  intros Hm Hpos. apply mod_add_exact; assumption.
Qed.

Lemma mod_add_matches_reference_witness :
  U64.in_range 7 /\ 0 < 7 /\
  exact (mod_add (2 ^ 64 - 1) (2 ^ 64 - 2) 7)
        (((2 ^ 64 - 1) mod 7 + (2 ^ 64 - 2) mod 7) mod 7).
Proof.
  assert (Hm : U64.in_range 7) by (unfold U64.in_range, U64.modulus; lia).
  assert (Hpos : 0 < 7) by lia.
  split; [exact Hm |]. split; [exact Hpos |].
  exact (mod_add_matches_reference (2 ^ 64 - 1) (2 ^ 64 - 2) 7 Hm Hpos).
Defined.

(** C7.  For every modulus [m > 0] and all [a], [b], [mod_mul a b m]
    returns [(a * b) mod m], also when [a * b] exceeds [2^64 - 1], and
    no intermediate operation wraps around modulo [2^64]. *)
Theorem mod_mul_matches_reference (x y m : Z) :
  U64.in_range m -> 0 < m ->
  exact (mod_mul x y m) ((x * y) mod m).
Proof.
  intros Hm Hpos. apply mod_mul_exact; assumption.
Qed.

Lemma mod_mul_matches_reference_witness :
  U64.in_range (2 ^ 64 - 1) /\ 0 < 2 ^ 64 - 1 /\
  exact (mod_mul (2 ^ 64 - 2) (2 ^ 64 - 3) (2 ^ 64 - 1))
        (((2 ^ 64 - 2) * (2 ^ 64 - 3)) mod (2 ^ 64 - 1)).
Proof.
  assert (Hm : U64.in_range (2 ^ 64 - 1)) by (unfold U64.in_range, U64.modulus; lia).
  assert (Hpos : 0 < 2 ^ 64 - 1) by lia.
  split; [exact Hm |]. split; [exact Hpos |].
  exact (mod_mul_matches_reference (2 ^ 64 - 2) (2 ^ 64 - 3) (2 ^ 64 - 1) Hm Hpos).
Defined.

(** C9.  For every modulus [m > 0] and all [a], [b], the results of
    [mod_add], [mod_sub] and [mod_mul] are residues in [0, m). *)
Theorem modular_results_are_residues (x y m : Z) :
  U64.in_range m -> 0 < m ->
  exists r_add r_sub r_mul,
    exact (mod_add x y m) r_add /\
    exact (mod_sub x y m) r_sub /\
    exact (mod_mul x y m) r_mul /\
    0 <= r_add < m /\ 0 <= r_sub < m /\ 0 <= r_mul < m.
Proof.
  intros Hm Hpos.
  exists ((x mod m + y mod m) mod m), ((x mod m - y mod m + m) mod m),
    ((x * y) mod m).
  split; [apply mod_add_exact; assumption |].
  split; [apply mod_sub_exact; assumption |].
  split; [apply mod_mul_exact; assumption |].
  repeat split; apply Z.mod_pos_bound; exact Hpos.
Qed.

Lemma modular_results_are_residues_witness :
  U64.in_range 1000000007 /\ 0 < 1000000007 /\
  exists r_add r_sub r_mul,
    exact (mod_add 123456789 987654321 1000000007) r_add /\
    exact (mod_sub 123456789 987654321 1000000007) r_sub /\
    exact (mod_mul 123456789 987654321 1000000007) r_mul /\
    0 <= r_add < 1000000007 /\ 0 <= r_sub < 1000000007 /\
    0 <= r_mul < 1000000007.
Proof.
  assert (Hm : U64.in_range 1000000007) by (unfold U64.in_range, U64.modulus; lia).
  assert (Hpos : 0 < 1000000007) by lia.
  split; [exact Hm |]. split; [exact Hpos |].
  exact (modular_results_are_residues 123456789 987654321 1000000007 Hm Hpos).
Defined.

(** C5.  The claim asks [(a ^ b) mod m] for every modulus [m > 0].
    At [a = 5], [b = 0], [m = 1] the reference value [5 ^ 0 mod 1] is
    0, and [mod_pow] returns 1: the loop does not run and the initial
    accumulator comes back unreduced.  With the exponent 1 the same
    call returns the residue 0, as [mod_mul] does at the modulus 1. *)
Theorem mod_pow_differs_at_unit_modulus :
  U64.in_range 5 /\ U64.in_range 0 /\ U64.in_range 1 /\ 0 < 1 /\
  5 ^ 0 mod 1 = 0 /\
  exact (mod_pow 5 0 1) 1 /\
  ~ returns (mod_pow 5 0 1) (5 ^ 0 mod 1) /\
  exact (mod_pow 5 1 1) (5 ^ 1 mod 1) /\
  exact (mod_mul 1 5 1) 0.
Proof.
  repeat (split; [unfold U64.in_range, U64.modulus; lia |]).
  split; [reflexivity |]. split; [reflexivity |].
  split; [intros [w H]; vm_compute in H; discriminate H |].
  split; vm_compute; reflexivity.
Qed.

(** C6.  The claim asks [mod_pow a 0 m = 1 mod m], which is 0 at
    [m = 1].  [mod_pow 7 0 1] returns 1, not a residue modulo 1; at
    the modulus 2 the same call returns [1 mod 2]. *)
Theorem mod_pow_zero_exponent_unit_modulus :
  U64.in_range 7 /\ U64.in_range 1 /\ 0 < 1 /\
  1 mod 1 = 0 /\
  exact (mod_pow 7 0 1) 1 /\
  ~ returns (mod_pow 7 0 1) (1 mod 1) /\
  exact (mod_pow 7 0 2) (1 mod 2).
Proof.
  repeat (split; [unfold U64.in_range, U64.modulus; lia |]).
  split; [reflexivity |]. split; [reflexivity |].
  split; [intros [w H]; vm_compute in H; discriminate H |].
  vm_compute. reflexivity.
Qed.

(** C10.  For every odd [n > 3], with [(k, q)] the pair computed by
    the decomposition loop, every index [j] of the inner loop
    ([0 <= j <= k - 2]) has [2 ^ j < n]; so [mod_pow 2 j n] is [2 ^ j]
    itself, and the value compared with [n - 1] is
    [a_i ^ (q * 2 ^ j) mod n]. *)
Theorem inner_loop_exponent_exact (n : Z) :
  U64.in_range n -> 3 < n -> Z.odd n = true ->
  exists k q,
    exact (decompose n) (k, q) /\
    forall j, 0 <= j <= k - 2 ->
      2 ^ j < n /\
      exact (mod_pow 2 j n) (2 ^ j) /\
      forall ai, In ai a ->
        exact (squaring_check ai q j n) (ai ^ (q * 2 ^ j) mod n).
Proof.
  intros Hn H3 Hodd.
  destruct (decompose_ready n Hn H3 Hodd) as (k & q & Hrun & Hq & Hk & Hfit).
  assert (H1 : 1 < n) by lia.
  exists k, q. split; [exact Hrun |]. intros j Hj.
  split; [apply (inner_index_small n k); assumption |].
  split; [apply (mod_pow_two_exact n k); assumption |].
  intros ai Hin.
  apply (squaring_check_exact n k q); try assumption.
  exact (proj1 (Forall_forall _ _) bases_in_range ai Hin).
Qed.

Lemma inner_loop_exponent_exact_witness :
  U64.in_range 97 /\ 3 < 97 /\ Z.odd 97 = true /\
  exists k q,
    exact (decompose 97) (k, q) /\
    forall j, 0 <= j <= k - 2 ->
      2 ^ j < 97 /\
      exact (mod_pow 2 j 97) (2 ^ j) /\
      forall ai, In ai a ->
        exact (squaring_check ai q j 97) (ai ^ (q * 2 ^ j) mod 97).
Proof.
  assert (Hn : U64.in_range 97) by (unfold U64.in_range, U64.modulus; lia).
  assert (H3 : 3 < 97) by lia.
  assert (Hodd : Z.odd 97 = true) by reflexivity.
  split; [exact Hn |]. split; [exact H3 |]. split; [exact Hodd |].
  exact (inner_loop_exponent_exact 97 Hn H3 Hodd).
Defined.

(** C3.  For every odd [n > 3], [miller_rabin n] returns [PRIME]
    exactly when some base of the ordered table [a] satisfies a pass
    condition ([mod_pow a_i q n = 1], or the squaring check equals
    [n - 1] for some [j] in [0 .. k-2]); it does so at the first such
    base, whatever follows it in the table; and it returns [COMPOSITE]
    exactly when no base satisfies a pass condition. *)
Theorem miller_rabin_first_passing_base (n : Z) :
  U64.in_range n -> 3 < n -> Z.odd n = true ->
  exists k q v,
    exact (decompose n) (k, q) /\
    exact (miller_rabin n) v /\
    (v = PRIME <-> Exists (passes q k n) a) /\
    (v = COMPOSITE <-> Forall (fun ai => ~ passes q k n ai) a) /\
    (forall before ai after later,
        a = before ++ ai :: after ->
        Forall (fun b => ~ passes q k n b) before ->
        passes q k n ai ->
        exact (miller_rabin_bases (before ++ ai :: later) n) PRIME).
Proof.
  intros Hn H3 Hodd.
  destruct (decompose_ready n Hn H3 Hodd) as (k & q & Hrun & Hq & Hk & Hfit).
  assert (H1 : 1 < n) by lia.
  destruct (witness_loop_exact n k q Hn H1 Hq Hk Hfit a bases_in_range)
    as (v & Hv & Hprime & Hcomp).
  exists k, q, v. split; [exact Hrun |]. split; [| split; [exact Hprime |]].
  - unfold miller_rabin, miller_rabin_bases, exact.
    rewrite table_complete, Hrun, bind_ret. exact Hv.
  - split; [exact Hcomp |].
    intros before ai after later Hsplit Hnone Hpass.
    pose proof bases_in_range as Hall. rewrite Hsplit in Hall.
    apply Forall_app in Hall. destruct Hall as [Hbefore Hrest].
    inversion Hrest as [| ? ? Hai _]; subst.
    unfold miller_rabin_bases, exact. rewrite Hrun, bind_ret.
    apply (witness_loop_first n k q); assumption.
Qed.

Lemma miller_rabin_first_passing_base_witness :
  U64.in_range 561 /\ 3 < 561 /\ Z.odd 561 = true /\
  exists k q v,
    exact (decompose 561) (k, q) /\
    exact (miller_rabin 561) v /\
    (v = PRIME <-> Exists (passes q k 561) a) /\
    (v = COMPOSITE <-> Forall (fun ai => ~ passes q k 561 ai) a) /\
    (forall before ai after later,
        a = before ++ ai :: after ->
        Forall (fun b => ~ passes q k 561 b) before ->
        passes q k 561 ai ->
        exact (miller_rabin_bases (before ++ ai :: later) 561) PRIME).
Proof.
  assert (Hn : U64.in_range 561) by (unfold U64.in_range, U64.modulus; lia).
  assert (H3 : 3 < 561) by lia.
  assert (Hodd : Z.odd 561 = true) by reflexivity.
  split; [exact Hn |]. split; [exact H3 |]. split; [exact Hodd |].
  exact (miller_rabin_first_passing_base 561 Hn H3 Hodd).
Defined.

(** C1.  The claim asks [COMPOSITE] for every composite odd [n > 3].
    At the composite [n = 15 = 3 * 5] the test returns [PRIME]: base
    29 is congruent to -1 modulo 15, satisfies the pass condition, and
    the first passing base decides. *)
Theorem miller_rabin_15_returns_prime :
  U64.in_range 15 /\ 3 < 15 /\ Z.odd 15 = true /\ ~ Z.prime 15 /\
  exact (decompose 15) (2, 7) /\
  exact (witness_step 29 7 2 15) true /\
  exact (miller_rabin 15) PRIME.
Proof.
  split; [unfold U64.in_range, U64.modulus; lia |].
  split; [lia |]. split; [reflexivity |]. split.
  - intros [_ Hp]. apply (Hp 3); [lia | exists 5; reflexivity].
  - repeat split; vm_compute; reflexivity.
Qed.

(** C2.  The claim asks [miller_rabin 9 = COMPOSITE].  The test
    returns [PRIME]: the bases 2, 3, 5, 7, 11 and 13 do not pass, base
    17 is congruent to -1 modulo 9 and passes at [j = 0]. *)
Theorem miller_rabin_9_returns_prime :
  exact (decompose 9) (4, 1) /\
  Forall (fun b => exact (witness_step b 1 4 9) false) [2; 3; 5; 7; 11; 13] /\
  exact (squaring_check 17 1 0 9) (9 - 1) /\
  exact (witness_step 17 1 4 9) true /\
  exact (miller_rabin 9) PRIME.
Proof.
  split; [vm_compute; reflexivity |].
  split; [repeat constructor; vm_compute; reflexivity |].
  repeat split; vm_compute; reflexivity.
Qed.

(** C4.  The claim asks [n - 1 = 2 ^ k * q] for the computed pair.
    At [n = 31] the loop yields [k = 2] and [q = 15]: [k] starts at 1
    and is one more than the number of trailing zero bits of [n - 1],
    so [n - 1 = 2 ^ (k - 1) * q] and [2 ^ k * q = 60]. *)
Theorem decompose_31_counts_one_more :
  U64.in_range 31 /\ 3 < 31 /\ Z.odd 31 = true /\
  exact (decompose 31) (2, 15) /\
  31 - 1 <> 2 ^ 2 * 15 /\ 31 - 1 = 2 ^ (2 - 1) * 15.
Proof.
  split; [unfold U64.in_range, U64.modulus; lia |].
  split; [lia |]. split; [reflexivity |].
  split; [vm_compute; reflexivity |]. split; [discriminate | reflexivity].
Qed.

(** * Further properties of the primitives *)

Lemma mod_congr (u v m c : Z) : u = v + c * m -> u mod m = v mod m.
Proof. intros ->. apply Z_mod_plus_full. Qed.

(** X1.  [mod_sub] agrees with subtraction modulo [m] on the integers, and
    no intermediate operation wraps around. *)
Theorem mod_sub_matches_reference (x y m : Z) :
  U64.in_range m -> 0 < m ->
  exact (mod_sub x y m) ((x - y) mod m).
Proof.
  intros Hm Hpos. unfold exact. rewrite (mod_sub_exact m Hpos Hm). unfold ret. f_equal.
  apply (mod_congr _ _ _ (1 - x / m + y / m)).
  rewrite (Z.mod_eq x m), (Z.mod_eq y m) by lia. ring.
Qed.

Lemma mod_sub_matches_reference_witness :
  U64.in_range 7 /\ 0 < 7 /\ exact (mod_sub 3 (2 ^ 64 - 1) 7) ((3 - (2 ^ 64 - 1)) mod 7).
Proof.
  assert (Hm : U64.in_range 7) by (unfold U64.in_range, U64.modulus; lia).
  assert (Hpos : 0 < 7) by lia.
  split; [exact Hm |]. split; [exact Hpos |].
  exact (mod_sub_matches_reference 3 (2 ^ 64 - 1) 7 Hm Hpos).
Defined.

(** X2.  With the modulus 0 every primitive stops at a remainder by zero:
    [mod_add], [mod_sub] and [mod_mul] at their first statement,
    [mod_pow] at its guard [a >= m], which every word satisfies. *)
Theorem zero_modulus_divides_by_zero (x y : Z) :
  U64.in_range x ->
  mod_add x y 0 = DivByZero /\ mod_sub x y 0 = DivByZero /\
  mod_mul x y 0 = DivByZero /\ mod_pow x y 0 = DivByZero.
Proof.
  unfold U64.in_range. intros Hx. repeat split; try reflexivity.
  unfold mod_pow. destruct (Z.geb_spec x 0); [reflexivity | lia].
Qed.

Lemma zero_modulus_divides_by_zero_witness :
  U64.in_range 5 /\
  mod_add 5 9 0 = DivByZero /\ mod_sub 5 9 0 = DivByZero /\
  mod_mul 5 9 0 = DivByZero /\ mod_pow 5 9 0 = DivByZero.
Proof.
  assert (Hx : U64.in_range 5) by (unfold U64.in_range, U64.modulus; lia).
  split; [exact Hx |].
  exact (zero_modulus_divides_by_zero 5 9 Hx).
Defined.

(** X3.  [mod_sub] undoes [mod_add] and [mod_add] undoes [mod_sub]: both
    round trips give back [a mod m]. *)
Theorem mod_add_mod_sub_round_trip (x y m : Z) :
  U64.in_range m -> 0 < m ->
  exact (s <- mod_add x y m ;; mod_sub s y m) (x mod m) /\
  exact (d <- mod_sub x y m ;; mod_add d y m) (x mod m).
Proof.
  intros Hm Hpos. unfold exact. split.
  - rewrite (mod_add_exact m Hpos Hm), bind_ret, (mod_sub_exact m Hpos Hm).
    unfold ret. f_equal. rewrite <- (Z.mod_mod x m) at 2 by lia.
    apply (mod_congr _ _ _ (1 - (x mod m + y mod m) / m)).
    rewrite Z.mod_mod by lia.
    rewrite (Z.mod_eq (x mod m + y mod m) m) by lia. ring.
  - rewrite (mod_sub_exact m Hpos Hm), bind_ret, (mod_add_exact m Hpos Hm).
    unfold ret. f_equal. rewrite <- (Z.mod_mod x m) at 2 by lia.
    apply (mod_congr _ _ _ (1 - (x mod m - y mod m + m) / m)).
    rewrite Z.mod_mod by lia.
    rewrite (Z.mod_eq (x mod m - y mod m + m) m) by lia. ring.
Qed.

Lemma mod_add_mod_sub_round_trip_witness :
  U64.in_range 1000 /\ 0 < 1000 /\
  exact (s <- mod_add 4321 999 1000 ;; mod_sub s 999 1000) (4321 mod 1000) /\
  exact (d <- mod_sub 4321 999 1000 ;; mod_add d 999 1000) (4321 mod 1000).
Proof.
  assert (Hm : U64.in_range 1000) by (unfold U64.in_range, U64.modulus; lia).
  assert (Hpos : 0 < 1000) by lia.
  split; [exact Hm |]. split; [exact Hpos |].
  exact (mod_add_mod_sub_round_trip 4321 999 1000 Hm Hpos).
Defined.

(** X4.  [mod_mul] does not depend on the order of its operands, although
    its loop runs over the bits of the second one only, and it
    distributes over [mod_add]. *)
Theorem mod_mul_commutes_and_distributes (x y z m : Z) :
  U64.in_range m -> 0 < m ->
  mod_mul x y m = mod_mul y x m /\
  (s <- mod_add y z m ;; mod_mul x s m) =
  (p <- mod_mul x y m ;; r <- mod_mul x z m ;; mod_add p r m).
Proof.
  intros Hm Hpos. split.
  - rewrite !(mod_mul_exact m Hpos Hm), Z.mul_comm. reflexivity.
  - rewrite (mod_add_exact m Hpos Hm), bind_ret.
    rewrite !(mod_mul_exact m Hpos Hm), !bind_ret.
    rewrite (mod_add_exact m Hpos Hm). unfold ret. f_equal.
    rewrite !Z.mod_mod by lia.
    rewrite <- Z.add_mod by lia.
    rewrite Z.mul_mod_idemp_r by lia.
    rewrite <- Z.add_mod by lia.
    f_equal. ring.
Qed.

Lemma mod_mul_commutes_and_distributes_witness :
  U64.in_range 97 /\ 0 < 97 /\
  mod_mul 1234 (2 ^ 63) 97 = mod_mul (2 ^ 63) 1234 97 /\
  (s <- mod_add (2 ^ 63) 55 97 ;; mod_mul 1234 s 97) =
  (p <- mod_mul 1234 (2 ^ 63) 97 ;; r <- mod_mul 1234 55 97 ;; mod_add p r 97).
Proof.
  assert (Hm : U64.in_range 97) by (unfold U64.in_range, U64.modulus; lia).
  assert (Hpos : 0 < 97) by lia.
  split; [exact Hm |]. split; [exact Hpos |].
  exact (mod_mul_commutes_and_distributes 1234 (2 ^ 63) 55 97 Hm Hpos).
Defined.

(** X5.  The exponent laws of [mod_pow] for a modulus above 1: raising a
    result of [mod_pow] to a further power is [mod_pow] at the product
    of the exponents, and multiplying two powers with [mod_mul] is
    [mod_pow] at the sum, as long as product and sum are words. *)
Theorem mod_pow_exponent_laws (x b c m : Z) :
  U64.in_range x -> U64.in_range b -> U64.in_range c ->
  U64.in_range m -> 1 < m ->
  U64.in_range (b * c) -> U64.in_range (b + c) ->
  (y <- mod_pow x b m ;; mod_pow y c m) = mod_pow x (b * c) m /\
  (p <- mod_pow x b m ;; r <- mod_pow x c m ;; mod_mul p r m) =
  mod_pow x (b + c) m.
Proof.
  intros Hx Hb Hc Hm H1 Hmul Hadd.
  assert (Hpos : 0 < m) by lia.
  assert (Hy : U64.in_range (x ^ b mod m)).
  { pose proof (Z.mod_pos_bound (x ^ b) m Hpos). unfold U64.in_range in *. lia. }
  split.
  - rewrite !(mod_pow_exact m Hpos Hm), bind_ret by (assumption || (left; exact H1)).
    rewrite (mod_pow_exact m Hpos Hm) by (assumption || (left; exact H1)).
    unfold ret. f_equal. unfold U64.in_range in *.
    rewrite Z.mod_pow_l, <- Z.pow_mul_r by lia. reflexivity.
  - rewrite !(mod_pow_exact m Hpos Hm), !bind_ret by (assumption || (left; exact H1)).
    rewrite (mod_mul_exact m Hpos Hm).
    unfold ret. f_equal. unfold U64.in_range in *.
    rewrite <- Z.mul_mod, <- Z.pow_add_r by lia. reflexivity.
Qed.

Lemma mod_pow_exponent_laws_witness :
  U64.in_range 3 /\ U64.in_range 20 /\ U64.in_range 5 /\
  U64.in_range 1000000007 /\ 1 < 1000000007 /\
  U64.in_range (20 * 5) /\ U64.in_range (20 + 5) /\
  (y <- mod_pow 3 20 1000000007 ;; mod_pow y 5 1000000007) =
  mod_pow 3 (20 * 5) 1000000007 /\
  (p <- mod_pow 3 20 1000000007 ;; r <- mod_pow 3 5 1000000007 ;;
   mod_mul p r 1000000007) =
  mod_pow 3 (20 + 5) 1000000007.
Proof.
  assert (Hx : U64.in_range 3) by (unfold U64.in_range, U64.modulus; lia).
  assert (Hb : U64.in_range 20) by (unfold U64.in_range, U64.modulus; lia).
  assert (Hc : U64.in_range 5) by (unfold U64.in_range, U64.modulus; lia).
  assert (Hm : U64.in_range 1000000007) by (unfold U64.in_range, U64.modulus; lia).
  assert (H1 : 1 < 1000000007) by lia.
  assert (Hmul : U64.in_range (20 * 5)) by (unfold U64.in_range, U64.modulus; lia).
  assert (Hadd : U64.in_range (20 + 5)) by (unfold U64.in_range, U64.modulus; lia).
  split; [exact Hx |]. split; [exact Hb |]. split; [exact Hc |].
  split; [exact Hm |]. split; [exact H1 |].
  split; [exact Hmul |]. split; [exact Hadd |].
  exact (mod_pow_exponent_laws 3 20 5 1000000007 Hx Hb Hc Hm H1 Hmul Hadd).
Defined.

(** X6.  Unlike the other three primitives, [mod_pow] can return a value
    that is not a residue: its result is below [m] except for the
    exponent 0 with the modulus 1. *)
Theorem mod_pow_result_range (x b m : Z) :
  U64.in_range x -> U64.in_range b -> U64.in_range m -> 0 < m ->
  exists r,
    exact (mod_pow x b m) r /\ 0 <= r /\
    (r < m <-> ~ (b = 0 /\ m = 1)).
Proof.
  intros Hx Hb Hm Hpos.
  destruct (Z.eq_dec b 0) as [-> | Hb0].
  - exists 1. split; [apply mod_pow_zero_exponent; exact Hpos |].
    split; [lia |]. split; [intros H1 [_ Hm1]; lia | intros Hn].
    destruct (Z.eq_dec m 1) as [-> | Hm1]; [exfalso; apply Hn; split; reflexivity | lia].
  - exists (x ^ b mod m).
    split; [apply mod_pow_exact; try assumption; unfold U64.in_range in Hb; lia |].
    pose proof (Z.mod_pos_bound (x ^ b) m Hpos) as Hr.
    split; [lia |]. split; [intros _ [Hb' _]; contradiction | intros _; lia].
Qed.

Lemma mod_pow_result_range_witness :
  U64.in_range 7 /\ U64.in_range 0 /\ U64.in_range 1 /\ 0 < 1 /\
  exists r,
    exact (mod_pow 7 0 1) r /\ 0 <= r /\ (r < 1 <-> ~ (0 = 0 /\ 1 = 1)).
Proof.
  assert (Hx : U64.in_range 7) by (unfold U64.in_range, U64.modulus; lia).
  assert (Hb : U64.in_range 0) by (unfold U64.in_range, U64.modulus; lia).
  assert (Hm : U64.in_range 1) by (unfold U64.in_range, U64.modulus; lia).
  assert (Hpos : 0 < 1) by lia.
  split; [exact Hx |]. split; [exact Hb |]. split; [exact Hm |].
  split; [exact Hpos |].
  exact (mod_pow_result_range 7 0 1 Hx Hb Hm Hpos).
Defined.

(** * Further properties of the test *)

(** The decomposition for any [n >= 2], odd or even. *)
Lemma decompose_general (n : Z) :
  U64.in_range n -> 2 <= n ->
  exists k q,
    decompose n = ret (k, q) /\
    n - 1 = 2 ^ (k - 1) * q /\ Z.odd q = true /\
    1 <= k <= 64 /\ 1 <= q < n /\
    (Z.odd n = true -> 2 <= k) /\ (Z.odd n = false -> k = 1).
Proof.
  unfold U64.in_range, U64.modulus. intros Hn H2.
  unfold decompose.
  rewrite sub_exact, bind_ret by (unfold U64.in_range, U64.modulus; lia).
  destruct (decompose_loop_exact U64.width (n - 1) 1)
    as (k & q & Hrun & Heq & Hq & Hle & Hq1 & Hlt);
    try (unfold U64.width, U64.modulus; simpl Z.of_nat; lia).
  exists k, q. split; [exact Hrun |]. split; [exact Heq |]. split; [exact Hq |].
  assert (Hpow : 0 < 2 ^ (k - 1)) by (apply Z.pow_pos_nonneg; lia).
  assert (Hk : k - 1 < 64).
  { apply (Z.pow_lt_mono_r_iff 2); nia. }
  split; [lia |]. split; [nia |]. split.
  - intros Hodd. assert (Z.odd (n - 1) = false) as Heven
      by (rewrite Z.odd_sub, Hodd; reflexivity).
    specialize (Hlt Heven). lia.
  - intros Heven. destruct (Z.eq_dec k 1) as [-> | Hk1]; [reflexivity | exfalso].
    assert (Hodd1 : Z.odd (n - 1) = true)
      by (rewrite Z.odd_sub, Heven; reflexivity).
    replace (k - 1) with (Z.succ (k - 2)) in Heq by lia.
    rewrite Z.pow_succ_r, <- Z.mul_assoc in Heq by lia.
    rewrite Heq, Z.odd_mul in Hodd1. discriminate Hodd1.
Qed.

(** X7.  In [miller_rabin.c] the local [k] is one more than the number of
    trailing zero bits of [n - 1] and [q] is the odd part: for every
    word [n >= 2], [n - 1 = 2 ^ (k - 1) * q] with [q] odd and
    [1 <= k <= 64]; [k = 1] exactly when [n] is even. *)
Theorem decompose_odd_part (n : Z) :
  U64.in_range n -> 2 <= n ->
  exists k q,
    exact (decompose n) (k, q) /\
    n - 1 = 2 ^ (k - 1) * q /\ Z.odd q = true /\
    1 <= k <= 64 /\ 1 <= q < n /\
    (k = 1 <-> Z.even n = true).
Proof.
  intros Hn H2.
  destruct (decompose_general n Hn H2)
    as (k & q & Hrun & Heq & Hq & Hk & Hq1 & Hodd & Heven).
  exists k, q. repeat (split; [assumption |]).
  rewrite <- Z.negb_odd. destruct (Z.odd n); cbn [negb]; split; intros H.
  - specialize (Hodd eq_refl). lia.
  - discriminate H.
  - reflexivity.
  - apply Heven. reflexivity.
Qed.

Lemma decompose_odd_part_witness :
  U64.in_range 97 /\ 2 <= 97 /\
  exists k q,
    exact (decompose 97) (k, q) /\
    97 - 1 = 2 ^ (k - 1) * q /\ Z.odd q = true /\
    1 <= k <= 64 /\ 1 <= q < 97 /\
    (k = 1 <-> Z.even 97 = true).
Proof.
  assert (Hn : U64.in_range 97) by (unfold U64.in_range, U64.modulus; lia).
  assert (H2 : 2 <= 97) by lia.
  split; [exact Hn |]. split; [exact H2 |].
  exact (decompose_odd_part 97 Hn H2).
Defined.

(** Modulo a prime, 1 has the two square roots 1 and -1 only. *)
Lemma sqrt_one_mod_prime (p x : Z) :
  Z.prime p -> (x * x) mod p = 1 -> x mod p = 1 \/ x mod p = p - 1.
Proof.
  intros Hp Hsq. pose proof (Z.prime_ge_2 p Hp) as Hge.
  assert (Hdiv : (p | (x - 1) * (x + 1))).
  { replace ((x - 1) * (x + 1)) with (x * x - 1) by ring.
    apply Zmod_divide_minus; [lia | exact Hsq]. }
  apply (Z.divide_prime_mul _ _ _ Hp) in Hdiv. destruct Hdiv as [Hd | Hd].
  - left. apply Zdivide_mod_minus; [lia | exact Hd].
  - right. apply Zdivide_mod_minus; [lia |].
    replace (x - (p - 1)) with (x + 1 - p) by ring.
    apply Z.divide_sub_r; [exact Hd | apply Z.divide_refl].
Qed.

(** Walking down the chain of squarings from a value 1: either the
    chain starts at 1, or it passes through -1. *)
Lemma squaring_chain (n ai q : Z) :
  Z.prime n -> 0 <= q ->
  forall s, 0 <= s ->
    ai ^ (q * 2 ^ s) mod n = 1 ->
    ai ^ q mod n = 1 \/
    exists j, 0 <= j <= s - 1 /\ ai ^ (q * 2 ^ j) mod n = n - 1.
Proof.
  intros Hp Hq. apply (natlike_ind (fun s => _ -> _ \/ _)).
  - rewrite Z.pow_0_r, Z.mul_1_r. intros H. left. exact H.
  - intros s Hs IH Hone.
    assert (Hpow : 0 <= 2 ^ s) by (apply Z.pow_nonneg; lia).
    rewrite Z.pow_succ_r, (Z.mul_comm 2), Z.mul_assoc in Hone by lia.
    rewrite Z.pow_mul_r, Z.pow_2_r in Hone by nia.
    rewrite <- Z.mul_mod_idemp_l, <- Z.mul_mod_idemp_r in Hone
      by (pose proof (Z.prime_ge_2 n Hp); lia).
    rewrite Z.mul_mod_idemp_l, Z.mul_mod_idemp_r in Hone
      by (pose proof (Z.prime_ge_2 n Hp); lia).
    destruct (sqrt_one_mod_prime n _ Hp Hone) as [H1 | Hm1].
    + destruct (IH H1) as [H | (j & Hj & Hc)]; [left; exact H | right].
      exists j. split; [lia | exact Hc].
    + right. exists s. split; [lia | exact Hm1].
Qed.

Lemma prime_above_two_is_odd (n : Z) : Z.prime n -> 2 < n -> Z.odd n = true.
Proof.
  intros [_ Hp] Hn. destruct (Z.odd n) eqn:Hodd; [reflexivity | exfalso].
  apply (Hp 2); [lia |].
  rewrite <- Z.negb_even in Hodd. apply negb_false_iff, Z.even_spec in Hodd.
  destruct Hodd as [c Hc]. exists c. lia.
Qed.

(** For a prime [n > 2] the base 2 satisfies a pass condition. *)
Lemma base_two_passes_prime (n k q : Z) :
  U64.in_range n -> Z.prime n -> 2 < n ->
  decompose n = ret (k, q) ->
  U64.in_range q /\ 1 <= k <= 64 /\ 2 ^ (k - 1) <= n - 1 /\ passes q k n 2.
Proof.
  intros Hn Hp H2 Hrun.
  destruct (decompose_general n Hn ltac:(lia))
    as (k' & q' & Hrun' & Heq & Hq & Hk & Hq1 & _ & _).
  rewrite Hrun in Hrun'. injection Hrun' as <- <-.
  assert (Hpow : 0 < 2 ^ (k - 1)) by (apply Z.pow_pos_nonneg; lia).
  assert (Hqw : U64.in_range q) by (unfold U64.in_range in *; lia).
  assert (Hfit : 2 ^ (k - 1) <= n - 1) by nia.
  split; [exact Hqw |]. split; [exact Hk |]. split; [exact Hfit |].
  apply (passes_iff n k q); try assumption; try lia.
  - unfold U64.in_range, U64.modulus. lia.
  - assert (Hfermat : 2 ^ (n - 1) mod n = 1).
    { apply ZmodInv.Z.fermat_nz; [exact Hp |]. rewrite Z.mod_small; lia. }
    rewrite Heq, Z.mul_comm in Hfermat.
    destruct (squaring_chain n 2 q Hp ltac:(lia) (k - 1) ltac:(lia) Hfermat)
      as [H | (j & Hj & Hc)]; [left; exact H | right].
    exists j. split; [lia | exact Hc].
Qed.

Lemma first_base_decides_prime (n : Z) (later : list Z) :
  U64.in_range n -> Z.prime n -> 2 < n ->
  miller_rabin_bases (2 :: later) n = ret PRIME.
Proof.
  intros Hn Hp H2.
  destruct (decompose_general n Hn ltac:(lia)) as (k & q & Hrun & _).
  destruct (base_two_passes_prime n k q Hn Hp H2 Hrun) as (Hq & Hk & Hfit & Hpass).
  unfold miller_rabin_bases. rewrite Hrun, bind_ret.
  change (2 :: later) with ([] ++ 2 :: later).
  apply (witness_loop_first n k q); try assumption; try constructor;
    try (unfold U64.in_range, U64.modulus; lia).
Qed.

Lemma miller_rabin_prime (n : Z) :
  U64.in_range n -> Z.prime n -> miller_rabin n = ret PRIME.
Proof.
  intros Hn Hp. pose proof (Z.prime_ge_2 n Hp) as Hge.
  destruct (Z.eq_dec n 2) as [-> | Hne]; [vm_compute; reflexivity |].
  apply (first_base_decides_prime n _ Hn Hp). lia.
Qed.

(** X8.  [miller_rabin] never rejects a prime: for every prime word [n] it
    returns [PRIME], so a verdict [COMPOSITE] is always right. *)
Theorem miller_rabin_accepts_every_prime (n : Z) :
  U64.in_range n ->
  (Z.prime n -> exact (miller_rabin n) PRIME) /\
  (returns (miller_rabin n) COMPOSITE -> ~ Z.prime n).
Proof.
  intros Hn. split.
  - intros Hp. apply miller_rabin_prime; assumption.
  - intros [w Hc] Hp. rewrite (miller_rabin_prime n Hn Hp) in Hc.
    discriminate Hc.
Qed.

Lemma miller_rabin_accepts_every_prime_witness :
  U64.in_range 5 /\ Z.prime 5 /\
  exact (miller_rabin 5) PRIME /\
  (returns (miller_rabin 5) COMPOSITE -> ~ Z.prime 5).
Proof.
  assert (Hn : U64.in_range 5) by (unfold U64.in_range, U64.modulus; lia).
  assert (Hp : Z.prime 5).
  { split; [lia |]. intros d Hd [c Hc].
    assert (Hcases : d = 2 \/ d = 3 \/ d = 4) by lia.
    destruct Hcases as [-> | [-> | ->]]; lia. }
  split; [exact Hn |]. split; [exact Hp |].
  split; [exact (proj1 (miller_rabin_accepts_every_prime 5 Hn) Hp) |].
  exact (proj2 (miller_rabin_accepts_every_prime 5 Hn)).
Defined.

(** X9.  For a prime [n > 2] the first iteration of the outer loop already
    returns: base [a[0] = 2] passes, and the rest of the table is not
    read. *)
Theorem prime_decided_by_first_base (n : Z) :
  U64.in_range n -> Z.prime n -> 2 < n ->
  exists k q,
    exact (decompose n) (k, q) /\
    exact (witness_step 2 q k n) true /\
    forall later, exact (miller_rabin_bases (2 :: later) n) PRIME.
Proof.
  intros Hn Hp H2.
  destruct (decompose_general n Hn ltac:(lia)) as (k & q & Hrun & _).
  destruct (base_two_passes_prime n k q Hn Hp H2 Hrun) as (Hq & Hk & Hfit & Hpass).
  exists k, q. split; [exact Hrun |]. split.
  - assert (H2w : U64.in_range 2) by (unfold U64.in_range, U64.modulus; lia).
    assert (H1 : 1 < n) by lia.
    destruct (witness_step_exact n k q Hn H1 Hq Hk Hfit 2 H2w)
      as (hit & Hstep & Hhit).
    apply Hhit in Hpass. subst hit. exact Hstep.
  - intros later. apply first_base_decides_prime; assumption.
Qed.

Lemma prime_decided_by_first_base_witness :
  U64.in_range 5 /\ Z.prime 5 /\ 2 < 5 /\
  exists k q,
    exact (decompose 5) (k, q) /\
    exact (witness_step 2 q k 5) true /\
    forall later, exact (miller_rabin_bases (2 :: later) 5) PRIME.
Proof.
  assert (Hn : U64.in_range 5) by (unfold U64.in_range, U64.modulus; lia).
  assert (Hp : Z.prime 5).
  { split; [lia |]. intros d Hd [c Hc].
    assert (Hcases : d = 2 \/ d = 3 \/ d = 4) by lia.
    destruct Hcases as [-> | [-> | ->]]; lia. }
  assert (H2 : 2 < 5) by lia.
  split; [exact Hn |]. split; [exact Hp |]. split; [exact H2 |].
  exact (prime_decided_by_first_base 5 Hn Hp H2).
Defined.

(** X10.  For an even [n >= 2] the decomposition gives [k = 1] and
    [q = n - 1], the inner loop is never entered, and the test is a
    Fermat test: it returns [PRIME] exactly when some base of the table
    has [a_i ^ (n - 1) mod n = 1]. *)
Theorem even_input_is_fermat_test (n : Z) :
  U64.in_range n -> 2 <= n -> Z.even n = true ->
  exact (decompose n) (1, n - 1) /\
  (forall ai, exact (inner_loop U64.width ai (n - 1) 1 n 0) false) /\
  exists v,
    exact (miller_rabin n) v /\
    (v = PRIME <-> exists ai, In ai a /\ ai ^ (n - 1) mod n = 1).
Proof.
  intros Hn H2 Heven.
  destruct (decompose_general n Hn H2)
    as (k & q & Hrun & Heq & _ & _ & _ & _ & Hk1).
  assert (Hodd : Z.odd n = false) by (rewrite <- Z.negb_even, Heven; reflexivity).
  specialize (Hk1 Hodd). subst k.
  rewrite Z.sub_diag, Z.pow_0_r, Z.mul_1_l in Heq. subst q.
  split; [exact Hrun |]. split; [intros ai; reflexivity |].
  assert (H1 : 1 < n) by lia.
  assert (Hq : U64.in_range (n - 1)) by (unfold U64.in_range in *; lia).
  assert (Hk : 1 <= 1 <= 64) by lia.
  assert (Hfit : 2 ^ (1 - 1) <= n - 1) by (simpl; lia).
  destruct (witness_loop_exact n 1 (n - 1) Hn H1 Hq Hk Hfit a bases_in_range)
    as (v & Hv & Hprime & _).
  exists v. split.
  - unfold miller_rabin, miller_rabin_bases, exact.
    rewrite table_complete, Hrun, bind_ret. exact Hv.
  - rewrite Hprime, Exists_exists. split.
    + intros (ai & Hin & Hpass). exists ai. split; [exact Hin |].
      apply (passes_iff n 1 (n - 1)) in Hpass; try assumption.
      * destruct Hpass as [H | (j & Hj & _)]; [exact H | lia].
      * exact (proj1 (Forall_forall _ _) bases_in_range ai Hin).
    + intros (ai & Hin & Hone). exists ai. split; [exact Hin |].
      apply (passes_iff n 1 (n - 1)); try assumption.
      * exact (proj1 (Forall_forall _ _) bases_in_range ai Hin).
      * left. exact Hone.
Qed.

Lemma even_input_is_fermat_test_witness :
  U64.in_range 4 /\ 2 <= 4 /\ Z.even 4 = true /\
  exact (decompose 4) (1, 4 - 1) /\
  (forall ai, exact (inner_loop U64.width ai (4 - 1) 1 4 0) false) /\
  exists v,
    exact (miller_rabin 4) v /\
    (v = PRIME <-> exists ai, In ai a /\ ai ^ (4 - 1) mod 4 = 1).
Proof.
  assert (Hn : U64.in_range 4) by (unfold U64.in_range, U64.modulus; lia).
  assert (H2 : 2 <= 4) by lia.
  assert (Heven : Z.even 4 = true) by reflexivity.
  split; [exact Hn |]. split; [exact H2 |]. split; [exact Heven |].
  exact (even_input_is_fermat_test 4 Hn H2 Heven).
Defined.

(** X11.  [miller_rabin] produces a verdict for every word except 0, with no
    wrap-around on the way; at [n = 0] the first call of [mod_pow]
    takes a remainder by zero. *)
Theorem miller_rabin_defined_unless_zero (n : Z) :
  U64.in_range n ->
  (n = 0 -> miller_rabin n = DivByZero) /\
  (n <> 0 -> exists v, exact (miller_rabin n) v).
Proof.
  intros Hn. split.
  - intros ->. vm_compute. reflexivity.
  - intros Hn0.
    destruct (Z.eq_dec n 1) as [-> | Hn1].
    + exists PRIME. vm_compute. reflexivity.
    + assert (H2 : 2 <= n) by (unfold U64.in_range in Hn; lia).
      destruct (decompose_general n Hn H2)
        as (k & q & Hrun & Heq & _ & Hk & Hq1 & _).
      assert (H1 : 1 < n) by lia.
      assert (Hpow : 0 < 2 ^ (k - 1)) by (apply Z.pow_pos_nonneg; lia).
      assert (Hq : U64.in_range q) by (unfold U64.in_range in *; lia).
      assert (Hfit : 2 ^ (k - 1) <= n - 1) by nia.
      destruct (witness_loop_exact n k q Hn H1 Hq Hk Hfit a bases_in_range)
        as (v & Hv & _).
      exists v. unfold miller_rabin, miller_rabin_bases, exact.
      rewrite table_complete, Hrun, bind_ret. exact Hv.
Qed.

Lemma miller_rabin_defined_unless_zero_witness :
  U64.in_range (2 ^ 64 - 1) /\
  (2 ^ 64 - 1 = 0 -> miller_rabin (2 ^ 64 - 1) = DivByZero) /\
  (2 ^ 64 - 1 <> 0 -> exists v, exact (miller_rabin (2 ^ 64 - 1)) v).
Proof.
  assert (Hn : U64.in_range (2 ^ 64 - 1)) by (unfold U64.in_range, U64.modulus; lia).
  split; [exact Hn |].
  exact (miller_rabin_defined_unless_zero (2 ^ 64 - 1) Hn).
Defined.

(** X12.  The verdict depends on which bases the table holds, not on their
    order: two tables with the same elements give the same result for
    every word [n >= 2]. *)
Theorem verdict_ignores_table_order (n : Z) (bases bases' : list Z) :
  U64.in_range n -> 2 <= n ->
  Forall U64.in_range bases -> Forall U64.in_range bases' ->
  (forall b, In b bases <-> In b bases') ->
  miller_rabin_bases bases n = miller_rabin_bases bases' n.
Proof.
  intros Hn H2 Hb Hb' Hsame.
  destruct (decompose_general n Hn H2)
    as (k & q & Hrun & Heq & _ & Hk & Hq1 & _).
  assert (H1 : 1 < n) by lia.
  assert (Hpow : 0 < 2 ^ (k - 1)) by (apply Z.pow_pos_nonneg; lia).
  assert (Hq : U64.in_range q) by (unfold U64.in_range in *; lia).
  assert (Hfit : 2 ^ (k - 1) <= n - 1) by nia.
  destruct (witness_loop_exact n k q Hn H1 Hq Hk Hfit bases Hb)
    as (v & Hv & Hprime & _).
  destruct (witness_loop_exact n k q Hn H1 Hq Hk Hfit bases' Hb')
    as (v' & Hv' & Hprime' & _).
  unfold miller_rabin_bases. rewrite Hrun, !bind_ret, Hv, Hv'. f_equal.
  assert (Hiff : v = PRIME <-> v' = PRIME).
  { rewrite Hprime, Hprime', !Exists_exists.
    split; intros (b & Hin & Hp); exists b; (split; [apply Hsame, Hin | exact Hp]). }
  destruct v, v'; try reflexivity.
  - symmetry. apply Hiff. reflexivity.
  - apply Hiff. reflexivity.
Qed.

Lemma verdict_ignores_table_order_witness :
  U64.in_range 9 /\ 2 <= 9 /\
  Forall U64.in_range [2; 17] /\ Forall U64.in_range [17; 2] /\
  (forall b, In b [2; 17] <-> In b [17; 2]) /\
  miller_rabin_bases [2; 17] 9 = miller_rabin_bases [17; 2] 9.
Proof.
  assert (Hn : U64.in_range 9) by (unfold U64.in_range, U64.modulus; lia).
  assert (H2 : 2 <= 9) by lia.
  assert (Hb : Forall U64.in_range [2; 17])
    by (repeat constructor; unfold U64.modulus; lia).
  assert (Hb' : Forall U64.in_range [17; 2])
    by (repeat constructor; unfold U64.modulus; lia).
  assert (Hsame : forall b, In b [2; 17] <-> In b [17; 2])
    by (intros b; simpl; tauto).
  split; [exact Hn |]. split; [exact H2 |]. split; [exact Hb |].
  split; [exact Hb' |]. split; [exact Hsame |].
  exact (verdict_ignores_table_order 9 [2; 17] [17; 2] Hn H2 Hb Hb' Hsame).
Defined.
